(** * Ubitrack core (utcore): correlation, poses, k-means and homographies

    A shallow embedding of parts of the Ubitrack core library and the
    properties established about them:

    - [Correlation]: [utCalibration/Correlation.cpp]
    - [Math]: the [Pose] class of [utMath/Pose.h]
    - [Stochastic]: the internal [k_means] of [utMath/Stochastic/k_means.h]
    - [Homography]: the DLT homography solver, after its specification

    In the first three, C++ [double] is Rocq's primitive binary64 [float];
    [std::vector] and [ublas::vector] are lists, with an access outside
    their range made explicit as a failure.  The homography solver is
    stated over the real numbers. *)

From Stdlib Require Import Floats Lia Reals Lra.
From stdpp Require Import base option list gmap.

Local Open Scope nat_scope.

(** ** utCalibration/Correlation.cpp *)

Module Correlation.

(** The three accumulators of [computeCorrelationDirect]. *)
Record sums := mkSums { res : float; var1 : float; var2 : float }.

(** [double res = 0.0; double var1 = 0.0; double var2 = 0.0;] *)
Definition sums0 : sums := mkSums 0%float 0%float 0%float.

(** [size_t len = left.size() < right.size() ? left.size() : right.size();] *)
Definition common_len (left right : list float) : nat :=
  if length left <? length right then length left else length right.

(** [left[i]] for [i < left.size()]; the default is never read by the loop,
    whose index stays below [len]. *)
Definition at_index (v : list float) (i : nat) : float := nth i v 0%float.

(** The body of the [for] loop at index [i]. *)
Definition loop_body (left right : list float) (i : nat) (s : sums) : sums :=
  mkSums (res s + at_index left i * at_index right i)%float
         (var1 s + at_index left i * at_index left i)%float
         (var2 s + at_index right i * at_index right i)%float.

(** [for (int i=0; i<len; i++) { ... }], with [todo = len - i] iterations
    still to run (vectors shorter than 2^31 elements, so that the [int]
    counter does not overflow). *)
Fixpoint loop (left right : list float) (todo i : nat) (s : sums) : sums :=
  match todo with
  | 0 => s
  | S todo' => loop left right todo' (S i) (loop_body left right i s)
  end.

Definition accumulate (left right : list float) : sums :=
  loop left right (common_len left right) 0 sums0.

(** [double denom = sqrt(var1*var2);] *)
Definition denom (left right : list float) : float :=
  let s := accumulate left right in
  PrimFloat.sqrt (var1 s * var2 s)%float.

(** [return res/denom;]: no test on [denom] precedes the division. *)
Definition computeCorrelationDirect (left right : list float) : float :=
  (res (accumulate left right) / denom left right)%float.

Definition computeCorrelation (left right : list float) : float :=
  if (length left =? 0) && (length right =? 0) then 1%float
  else computeCorrelationDirect left right.

(** The entries of [v] at the indices below [len] are all zero. *)
Definition zero_prefix (len : nat) (v : list float) : Prop :=
  Forall (fun a => a = 0%float) (take len v).

End Correlation.

(** ** utMath/Pose.h *)

Module Math.

(** Modelled from the spec: [Quaternion] ([utMath/Quaternion.h] is absent).
    A quaternion is its four components; Pose.h documents their order in a
    vector as [qx, qy, qz, qw]. *)
Record Quaternion := mkQuaternion { qx : float; qy : float; qz : float; qw : float }.

(** [Vector< double, 3 >]: three components, read and written by index. *)
Record Vector3 := mkVector3 { c0 : float; c1 : float; c2 : float }.

(** [v( i )] *)
Definition vget (v : Vector3) (i : nat) : float :=
  match i with 0 => c0 v | 1 => c1 v | _ => c2 v end.

(** [v( i ) = a] *)
Definition vset (v : Vector3) (i : nat) (a : float) : Vector3 :=
  match i with
  | 0 => mkVector3 a (c1 v) (c2 v)
  | 1 => mkVector3 (c0 v) a (c2 v)
  | _ => mkVector3 (c0 v) (c1 v) a
  end.

(** [class Pose]: [m_rotation] and [m_translation], set by the constructor
    [Pose( const Quaternion& q, const Vector< double, 3 >& t )]. *)
Record Pose := mkPose { m_rotation : Quaternion; m_translation : Vector3 }.

(** [m_translation( i ) *= scalingFactor;] *)
Definition scale_component (i : nat) (scalingFactor : float) (this : Pose) : Pose :=
  mkPose (m_rotation this)
         (vset (m_translation this) i (vget (m_translation this) i * scalingFactor)%float).

(** [void scalePose( double scalingFactor )]: not [const]; the three
    statements run on the receiver, whose new state is the result. *)
Definition scalePose (scalingFactor : float) (this : Pose) : Pose :=
  let this := scale_component 0 scalingFactor this in
  let this := scale_component 1 scalingFactor this in
  let this := scale_component 2 scalingFactor this in
  this.

(** [const Quaternion& rotation() const] *)
Definition rotation (this : Pose) : Quaternion := m_rotation this.

(** [const Vector< double, 3 >& translation() const] *)
Definition translation (this : Pose) : Vector3 := m_translation this.

(** The [VType] of [toVector] and [fromVector], at
    [ublas::vector< double >]. *)
Definition uvector := list float.

(** [vector_range< VType >( v, range( start, stop ) )] and
    [subrange( v, start, stop )] are views of [v( start ) .. v( stop - 1 )].
    A range that leaves the vector is an access outside it; the model
    ends such a call without a result. *)
Definition range_ok (v : uvector) (start stop : nat) : bool :=
  (start <=? stop) && (stop <=? length v).

(** Modelled from the spec: [Quaternion::toVector] (Quaternion.h is absent)
    stores [x, y, z, w] in elements 0..3 of the view it is given, here the
    view of [v] that starts at [start]. *)
Definition Quaternion_toVector (q : Quaternion) (start : nat) (v : uvector) : uvector :=
  <[start + 3 := qw q]> (<[start + 2 := qz q]> (<[start + 1 := qy q]> (<[start := qx q]> v))).

(** Modelled from the spec: [Quaternion::fromVector] (Quaternion.h is
    absent) reads [x, y, z, w] from elements 0..3 of its argument. *)
Definition Quaternion_fromVector (sub : uvector) : option Quaternion :=
  x ← sub !! 0; y ← sub !! 1; z ← sub !! 2; w ← sub !! 3;
  Some (mkQuaternion x y z w).

(** [vector_cast_assign( posSub, m_translation )] for a vector of [double]:
    element-wise assignment, the cast to the value type being the identity. *)
Definition vector_cast_assign (start : nat) (t : Vector3) (v : uvector) : uvector :=
  <[start + 2 := vget t 2]> (<[start + 1 := vget t 1]> (<[start := vget t 0]> v)).

(** [template< class VType > void toVector( VType& v ) const]: the result
    is the new content of [v]; [None] when [v] is too short for a range. *)
Definition toVector (this : Pose) (v : uvector) : option uvector :=
  if range_ok v 3 7 then
    let v := Quaternion_toVector (m_rotation this) 3 v in
    if range_ok v 0 3 then Some (vector_cast_assign 0 (m_translation this) v)
    else None
  else None.

(** [subrange( v, start, stop )] as a vector of its own. *)
Definition subrange (v : uvector) (start stop : nat) : option uvector :=
  if range_ok v start stop then Some (take (stop - start) (drop start v)) else None.

(** [template< class VType > static Pose fromVector( const VType& v )] *)
Definition fromVector (v : uvector) : option Pose :=
  sub ← subrange v 3 7;
  q ← Quaternion_fromVector sub;
  t0 ← v !! 0; t1 ← v !! 1; t2 ← v !! 2;
  Some (mkPose q (mkVector3 t0 t1 t2)).

(** A pose to run the operations on: no rotation, translation (1, 2, 3). *)
Definition pose123 : Pose :=
  mkPose (mkQuaternion 0 0 0 1)%float (mkVector3 1 2 3)%float.

End Math.

(** ** utMath/Pose.h: poses as objects of a program state *)

Module PoseStore.
Import Math.













End PoseStore.

(** ** utMath/Stochastic/k_means.h *)

Module Stochastic.

(** What the templates ask of the vector type [V] and of its
    [value_type] [T].  The operations are total, as they are on a
    floating-point [value_type], where a division by a zero count gives an
    infinity or a NaN. *)
Class VectorOps (V T : Type) := {
  (** [vector_out_type::zeros()] *)
  zeros : V;
  (** [a += b] *)
  vec_add : V -> V -> V;
  (** [a /= c] for an integral count [c] *)
  vec_div : V -> nat -> V;
  (** [static_cast< value_type >( 0 )] *)
  val_zero : T;
  (** [a + b], as [std::accumulate] applies it *)
  val_add : T -> T -> T;
  (** [a / n_cluster] *)
  val_div : T -> nat -> T;
  (** [a < b] *)
  val_lt : T -> T -> bool;
  (** [std::pow( static_cast< value_type >( 1e-02 ), 2 )] *)
  epsilon : T
}.

(** How a run of the model ends: with a result, at an access through an
    iterator outside its range or a failed [assert], or with the step
    budget of the model used up. *)
Inductive outcome (A : Type) :=
| Done (a : A)
| Fault
| OutOfFuel.
Arguments Done {A} a.
Arguments Fault {A}.
Arguments OutOfFuel {A}.

(** [const std::size_t max_iter = 100;] *)
Definition max_iter : nat := 100.

Section KMeans.

Context {V T : Type} `{VectorOps V T}.

(** The [BinaryOperator distanceFunc]. *)
Variable distanceFunc : V -> V -> T.

(** The [for] loop of [assign_indices::operator()]: [rest] is the range
    from [iter] to [iEnd]. *)
Fixpoint assign_indices_loop (vec : V) (rest : list V) (k_now : nat) (d : T) (k : nat) : nat :=
  match rest with
  | [] => k
  | m :: rest' =>
      let d_new := distanceFunc vec m in
      if val_lt d_new d then assign_indices_loop vec rest' (S k_now) d_new k_now
      else assign_indices_loop vec rest' (S k_now) d k
  end.

(** [assign_indices( iBegin, iEnd, distanceFunc )( vec )]: the first
    statement reads [*iter++] with [iter = iBegin], whatever the range. *)
Definition assign_indices (means : list V) (vec : V) : option nat :=
  match means with
  | [] => None
  | m :: rest => Some (assign_indices_loop vec rest 1 (distanceFunc vec m) 0)
  end.

(** [std::transform( iBegin, iEnd, ..., assign_indices( ... ) )] *)
Definition assign_all (means : list V) (input : list V) : option (list nat) :=
  mapM (assign_indices means) input.

(** [k_means_accumulate( iBegin, iEnd, indices.begin(), assign_to_mean(
    means_temp.begin() ) )]: for each element, [*(iBegin + index) += vec]. *)
Fixpoint k_means_accumulate (input : list V) (indices : list nat) (means_temp : list V)
  : option (list V) :=
  match input, indices with
  | [], _ => Some means_temp
  | vec :: input', index :: indices' =>
      m ← means_temp !! index;
      k_means_accumulate input' indices' (<[index := vec_add m vec]> means_temp)
  | _ :: _, [] => None
  end.

(** [std::count( indices.begin(), indices.end(), k )] *)
Definition count (indices : list nat) (k : nat) : nat :=
  length (filter (fun j => j = k) indices).

(** [for( k = 0; k<n_cluster; ++k ) means_temp[ k ] /= std::count( ... );] *)
Definition divide_by_counts (indices : list nat) (means_temp : list V) : list V :=
  imap (fun k m => vec_div m (count indices k)) means_temp.

(** [std::accumulate( norms1.begin(), norms1.end(), 0 )] *)
Definition accumulate (norms : list T) : T := foldl val_add val_zero norms.

(** The variables the refinement loop of [k_means] works on;
    [diff_error] is declared without a value.  [executed] counts the
    runs of the loop body. *)
Record loop_state := mkState {
  means : list V;
  indices : list nat;
  diff_error : option T;
  executed : nat
}.

(** One run of the loop body, up to the test that ends it: the new value
    of [diff_error] and the state.  [n_cluster] is the constant computed
    before the loop. *)
Definition iteration (input : list V) (n_cluster : nat) (st : loop_state)
  : option (T * loop_state) :=
  let means_temp := replicate n_cluster zeros in
  means_temp ← k_means_accumulate input (indices st) means_temp;
  let means_temp := divide_by_counts (indices st) means_temp in
  let norms1 := zip_with distanceFunc (means st) means_temp in
  let diff := val_div (accumulate norms1) n_cluster in
  indices' ← assign_all means_temp input;
  Some (diff, mkState means_temp indices' (Some diff) (S (executed st))).

(** [for( ; i<max_iter; ++i ) { ...; if( diff_error < epsilon ) break; }]
    One unit of [fuel] pays for one test of the loop condition. *)
Fixpoint refinement_loop (fuel : nat) (input : list V) (n_cluster : nat) (i : nat) (st : loop_state)
  : outcome loop_state :=
  match fuel with
  | 0 => OutOfFuel
  | S fuel' =>
      if i <? max_iter then
        match iteration input n_cluster st with
        | None => Fault
        | Some (diff, st') =>
            if val_lt diff epsilon then Done st'
            else refinement_loop fuel' input n_cluster (S i) st'
        end
      else Done st
  end.

(** The internal [k_means( iBegin, iEnd, itMeanBegin, itMeanEnd,
    indicesOut, distanceFunc )]: the final state holds the means, the
    indices copied to [indicesOut] and the returned [diff_error].  A failed
    [assert( n > n_cluster )] ends the run. *)
Definition k_means (fuel : nat) (input : list V) (means0 : list V) : outcome loop_state :=
  let n := length input in
  let n_cluster := length means0 in
  if n_cluster <? n then
    match assign_all means0 input with
    | None => Fault
    | Some indices0 => refinement_loop fuel input n_cluster 0 (mkState means0 indices0 None 0)
    end
  else Fault.

(** What the loop keeps true of its variables, for [n] input elements and
    [n_cluster] means: there is a mean, every element has an index, and
    every index names a mean. *)
Definition loop_inv (n n_cluster : nat) (st : loop_state) : Prop :=
  0 < n_cluster
  /\ length (means st) = n_cluster
  /\ length (indices st) = n
  /\ Forall (fun j => j < n_cluster) (indices st).

End KMeans.

(** *** An instance: points of the plane with [double] coordinates *)

(** [Vector< double, 2 >] *)
Record Vector2 := mkVector2 { px : float; py : float }.

#[export] Instance Vector2Ops : VectorOps Vector2 float := {
  zeros := mkVector2 0%float 0%float;
  vec_add a b := mkVector2 (px a + px b)%float (py a + py b)%float;
  vec_div a c := mkVector2 (px a / PrimFloat.of_uint63 (Uint63.of_nat c))%float
                           (py a / PrimFloat.of_uint63 (Uint63.of_nat c))%float;
  val_zero := 0%float;
  val_add := PrimFloat.add;
  val_div a c := (a / PrimFloat.of_uint63 (Uint63.of_nat c))%float;
  val_lt := PrimFloat.ltb;
  epsilon := (0x1.47ae147ae147bp-7 * 0x1.47ae147ae147bp-7)%float
}.

(** Modelled from the spec: [SquaredDistance< Vector< double, 2 > >]
    (VectorFunctions.h is absent), the sum of the squared differences of
    the coordinates. *)
Definition SquaredDistance (a b : Vector2) : float :=
  ((px a - px b) * (px a - px b) + (py a - py b) * (py a - py b))%float.

(** Four points in two groups, and two of them as the initial means. *)
Definition points4 : list Vector2 :=
  [mkVector2 0 0; mkVector2 0 1; mkVector2 10 10; mkVector2 10 11]%float.

Definition means2 : list Vector2 := [mkVector2 0 0; mkVector2 10 10]%float.

(** Three initial means of which two never attract a point. *)
Definition means3 : list Vector2 :=
  [mkVector2 0 0; mkVector2 0 0; mkVector2 100 100]%float.

End Stochastic.

(** ** The DLT homography solver (spec section 4.2)

    [utCalibration/Homography.h] is absent; the test that calls
    [homographyDLT] is all there is of it.  The solver is modelled from
    the spec, in exact real arithmetic. *)

Module Homography.

Local Open Scope R_scope.

(** Point2D *)
Definition Point2 : Type := R * R.

(** Homography3x3, and the nine unknowns of H flattened row-major. *)
Record Matrix3 := mkMatrix3 {
  m00 : R; m01 : R; m02 : R;
  m10 : R; m11 : R; m12 : R;
  m20 : R; m21 : R; m22 : R
}.

Definition zero3 : Matrix3 := mkMatrix3 0 0 0 0 0 0 0 0 0.

Definition scale3 (k : R) (A : Matrix3) : Matrix3 :=
  mkMatrix3 (k * m00 A) (k * m01 A) (k * m02 A)
            (k * m10 A) (k * m11 A) (k * m12 A)
            (k * m20 A) (k * m21 A) (k * m22 A).

Definition add3 (A B : Matrix3) : Matrix3 :=
  mkMatrix3 (m00 A + m00 B) (m01 A + m01 B) (m02 A + m02 B)
            (m10 A + m10 B) (m11 A + m11 B) (m12 A + m12 B)
            (m20 A + m20 B) (m21 A + m21 B) (m22 A + m22 B).

Definition mul3 (A B : Matrix3) : Matrix3 :=
  mkMatrix3
    (m00 A * m00 B + m01 A * m10 B + m02 A * m20 B)
    (m00 A * m01 B + m01 A * m11 B + m02 A * m21 B)
    (m00 A * m02 B + m01 A * m12 B + m02 A * m22 B)
    (m10 A * m00 B + m11 A * m10 B + m12 A * m20 B)
    (m10 A * m01 B + m11 A * m11 B + m12 A * m21 B)
    (m10 A * m02 B + m11 A * m12 B + m12 A * m22 B)
    (m20 A * m00 B + m21 A * m10 B + m22 A * m20 B)
    (m20 A * m01 B + m21 A * m11 B + m22 A * m21 B)
    (m20 A * m02 B + m21 A * m12 B + m22 A * m22 B).

(** The inner product of two flattened matrices. *)
Definition dot9 (A B : Matrix3) : R :=
  m00 A * m00 B + m01 A * m01 B + m02 A * m02 B
  + m10 A * m10 B + m11 A * m11 B + m12 A * m12 B
  + m20 A * m20 B + m21 A * m21 B + m22 A * m22 B.

(** The error taxonomy of spec section 7. *)
Inductive error :=
| InsufficientCorrespondences
| DegenerateConfiguration
| SingularIntrinsics
| DegenerateHomography.

(** A homography or a typed failure. *)
Inductive result :=
| Ok (H : Matrix3)
| Fail (e : error).

(** The points lie on one line a x + b y + c = 0. *)
Definition collinear (pts : list Point2) : Prop :=
  exists a b c, (a <> 0 \/ b <> 0) /\ Forall (fun p => a * fst p + b * snd p + c = 0) pts.

(** *** HomographyDLTSolver *)

Definition sum_x (pts : list Point2) : R := foldr (fun p acc => fst p + acc) 0 pts.
Definition sum_y (pts : list Point2) : R := foldr (fun p acc => snd p + acc) 0 pts.

Definition centroid (pts : list Point2) : Point2 :=
  (sum_x pts / INR (length pts), sum_y pts / INR (length pts)).

Definition distance (p c : Point2) : R :=
  sqrt ((fst p - fst c) * (fst p - fst c) + (snd p - snd c) * (snd p - snd c)).

Definition mean_distance (pts : list Point2) (c : Point2) : R :=
  foldr (fun p acc => distance p c + acc) 0 pts / INR (length pts).

(** A similarity transform p |-> s (p - c). *)
Record Similarity := mkSimilarity { sim_scale : R; sim_centre : Point2 }.

(** Step 1: the centroid goes to the origin and the mean distance from it
    becomes sqrt 2. *)
Definition normalization (pts : list Point2) : Similarity :=
  mkSimilarity (sqrt 2 / mean_distance pts (centroid pts)) (centroid pts).

Definition apply_similarity (T : Similarity) (p : Point2) : Point2 :=
  (sim_scale T * (fst p - fst (sim_centre T)), sim_scale T * (snd p - snd (sim_centre T))).

(** T and its inverse as 3x3 matrices. *)
Definition similarity_matrix (T : Similarity) : Matrix3 :=
  mkMatrix3 (sim_scale T) 0 (- sim_scale T * fst (sim_centre T))
            0 (sim_scale T) (- sim_scale T * snd (sim_centre T))
            0 0 1.

Definition similarity_inverse (T : Similarity) : Matrix3 :=
  mkMatrix3 (/ sim_scale T) 0 (fst (sim_centre T))
            0 (/ sim_scale T) (snd (sim_centre T))
            0 0 1.

(** Step 2: the two rows that a correspondence (x, y) -> (u, v) adds to
    the coefficient matrix, from destination x (H . source) = 0. *)
Definition rows_of (c : Point2 * Point2) : list Matrix3 :=
  let '((x, y), (u, v)) := c in
  [ mkMatrix3 0 0 0 (- x) (- y) (- 1) (v * x) (v * y) v;
    mkMatrix3 x y 1 0 0 0 (- u * x) (- u * y) (- u) ].

(** The 2N x 9 coefficient matrix, as the list of its rows. *)
Definition coefficient_matrix (source dest : list Point2) : list Matrix3 :=
  flat_map rows_of (zip source dest).

(** A h = 0 *)
Definition null_vector (A : list Matrix3) (h : Matrix3) : Prop :=
  Forall (fun row => dot9 row h = 0) A.

(** |A h|^2 *)
Definition residual (A : list Matrix3) (h : Matrix3) : R :=
  foldr (fun row acc => dot9 row h * dot9 row h + acc) 0 A.

(** Step 3: a right-singular vector of the smallest singular value is a
    unit vector at which |A h| is least. *)
Definition smallest_singular_vector (A : list Matrix3) (h : Matrix3) : Prop :=
  dot9 h h = 1 /\ forall h', dot9 h' h' = 1 -> residual A h <= residual A h'.

Definition independent (h h' : Matrix3) : Prop :=
  forall a b, add3 (scale3 a h) (scale3 b h') = zero3 -> a = 0 /\ b = 0.

(** The coefficient matrix is rank-deficient below expectation: its rank
    is less than 8, that is, its second-smallest singular value is zero
    and it has two independent null vectors. *)
Definition rank_deficient (A : list Matrix3) : Prop :=
  exists h h', independent h h' /\ null_vector A h /\ null_vector A h'.

(** The coefficient matrix of the normalised correspondences. *)
Definition normalized_system (source dest : list Point2) : list Matrix3 :=
  coefficient_matrix (map (apply_similarity (normalization source)) source)
                     (map (apply_similarity (normalization dest)) dest).

(** Modelled from the spec: [homographyDLT] (spec name
    [solveHomographyDLT]; utCalibration/Homography.h is absent), by section
    4.2 for equal-length sequences: it fails with
    [InsufficientCorrespondences] when N < 4 and with
    [DegenerateConfiguration] when the coefficient matrix is
    rank-deficient; otherwise (steps 3 to 5) it returns
    T_dst^-1 . H_normalized . T_src for a smallest singular vector
    H_normalized, at some non-zero scale. *)
Inductive solveHomographyDLT (source dest : list Point2) : result -> Prop :=
| dlt_insufficient :
    length source = length dest ->
    (length source < 4)%nat ->
    solveHomographyDLT source dest (Fail InsufficientCorrespondences)
| dlt_degenerate :
    length source = length dest ->
    (4 <= length source)%nat ->
    rank_deficient (normalized_system source dest) ->
    solveHomographyDLT source dest (Fail DegenerateConfiguration)
| dlt_solved (Hn : Matrix3) (k : R) :
    length source = length dest ->
    (4 <= length source)%nat ->
    ~ rank_deficient (normalized_system source dest) ->
    smallest_singular_vector (normalized_system source dest) Hn ->
    k <> 0 ->
    solveHomographyDLT source dest
      (Ok (scale3 k (mul3 (similarity_inverse (normalization dest))
                          (mul3 Hn (similarity_matrix (normalization source)))))).

(** The matrix with the line a x + b y + c = 0 in its first row, and the
    one with the line in its second row. *)
Definition line_in_row0 (a b c : R) : Matrix3 := mkMatrix3 a b c 0 0 0 0 0 0.
Definition line_in_row1 (a b c : R) : Matrix3 := mkMatrix3 0 0 0 a b c 0 0 0.

(** Three correspondences, and four whose source points lie on the line
    y = x. *)
Definition three_points : list Point2 := [(0, 0); (1, 0); (0, 1)].

Definition diagonal_points : list Point2 := [(0, 0); (1, 1); (2, 2); (3, 3)].

Definition square_points : list Point2 := [(0, 0); (1, 0); (1, 1); (0, 1)].

End Homography.

(** ** utMath/Stochastic/k_means.h: the choice of the initial means *)

Module Initial.
Import Stochastic.

(** [2^64 - 1], the largest [std::size_t]. *)
Definition size_max : nat := Z.to_nat (2 ^ 64 - 1).

(** [n - 1] on [std::size_t], which wraps at zero. *)
Definition size_pred (n : nat) : nat := if n =? 0 then size_max else n - 1.

Section Selection.

Context {V T : Type} `{VectorOps V T}.

(** The loop of [copy_greedy], with [todo] elements still to copy, [iter]
    at index [i]: [( *itSelected++ ) = ( *iter );]. *)
Fixpoint copy_greedy_loop (input : list V) (todo i : nat) (selected : list V)
  : option (list V) :=
  match todo with
  | 0 => Some selected
  | S todo' =>
      x ← input !! i;
      copy_greedy_loop input todo' (S i) (selected ++ [x])
  end.

(** [copy_greedy( iBegin, iEnd, n_cluster, itSelected )]: [itFinal] is
    [iBegin + n_cluster]; [iEnd] is not used.  The result is what went to
    [itSelected]. *)
Definition copy_greedy (input : list V) (n_cluster : nat) : option (list V) :=
  copy_greedy_loop input n_cluster 0 [].

(** What [copy_probability] asks of [value_type] beyond [VectorOps]:
    [a <= b] and [a -= b]. *)
Variable val_le : T -> T -> bool.
Variable val_sub : T -> T -> T.

(** The generator of [Random/Scalar.h] (absent):
    [distribute_uniform< std::size_t >( 0, hi )], called once, and
    [distribute_uniform< value_type >( 0, hi )] as called in the round
    [k] of the loop. *)
Variable draw_index : nat -> nat.
Variable draw_value : nat -> T -> T.

Variable distanceFunc : V -> V -> T.

(** [std::min< value_type >( a, b )] *)
Definition val_min (a b : T) : T := if val_lt b a then b else a.

(** [std::transform( iBegin, iEnd, identity( *itNewOut ).begin(), ...,
    distanceFunc )]: the distance of every element to the one chosen. *)
Definition distances_to (chosen : V) (input : list V) : list T :=
  map (fun x => distanceFunc x chosen) input.

(** [for( index = 0; index < (n-1); ++index ) if ( max_range <=
    distances[ index ] ) break; else max_range -= distances[ index ];]
    with [todo] the rounds left; the result is the final [index]. *)
Fixpoint pick (distances : list T) (todo index : nat) (max_range : T) : option nat :=
  match todo with
  | 0 => Some index
  | S todo' =>
      d ← distances !! index;
      if val_le max_range d then Some index
      else pick distances todo' (S index) (val_sub max_range d)
  end.

(** [for( k = 1; k < n_cluster; ++k, ++itSelected ) { ... }] followed by
    [return n_cluster;], with [todo = n_cluster - k] rounds left. *)
Fixpoint select_more (input : list V) (n_cluster todo k : nat)
    (distances : list T) (dist_sum : T) (selected : list V)
  : outcome (nat * list V) :=
  match todo with
  | 0 => Done (n_cluster, selected)
  | S todo' =>
      if val_le dist_sum val_zero then Done (k, selected)
      else
        let max_range := draw_value k dist_sum in
        match pick distances (length input - 1) 0 max_range with
        | None => Fault
        | Some index =>
            match input !! index with
            | None => Fault
            | Some chosen =>
                let distances_temp := distances_to chosen input in
                let distances := zip_with val_min distances distances_temp in
                select_more input n_cluster todo' (S k) distances
                            (accumulate (V := V) distances) (selected ++ [chosen])
            end
        end
  end.

(** [copy_probability( iBegin, iEnd, n_cluster, itSelected, distanceFunc )]:
    the value returned and what went to [itSelected]. *)
Definition copy_probability (input : list V) (n_cluster : nat) : outcome (nat * list V) :=
  let n := length input in
  let index := draw_index (size_pred n) in
  match input !! index with
  | None => Fault
  | Some chosen =>
      let distances := distances_to chosen input in
      let dist_sum := accumulate (V := V) distances in
      select_more input n_cluster (n_cluster - 1) 1 distances dist_sum [chosen]
  end.

(** The [SquaredDistance] functor the second stage is called with. *)
Variable squaredDistanceFunc : V -> V -> T.

(** [k_means( iBeginValues, iEndValues, n_cluster, itCentroids,
    itIndices )]: the means that [copy_probability] selects (its return
    value is dropped) go to the internal [k_means]; the final state holds
    the centroids and the indices written out. *)
Definition k_means_by_count (fuel : nat) (input : list V) (n_cluster : nat)
  : outcome loop_state :=
  match copy_probability input n_cluster with
  | Done (_, means) => k_means squaredDistanceFunc fuel input means
  | Fault => Fault
  | OutOfFuel => OutOfFuel
  end.

(** The elements of the input whose index is [k], in input order. *)
Fixpoint cluster (input : list V) (indices : list nat) (k : nat) : list V :=
  match input, indices with
  | vec :: input', index :: indices' =>
      if index =? k then vec :: cluster input' indices' k
      else cluster input' indices' k
  | _, _ => []
  end.

(** The distances in [ds] compare as numbers do: [<] on them is asymmetric
    and its complement is transitive (no NaN among them). *)
Definition comparable (ds : list T) : Prop :=
  (forall a b, a ∈ ds -> b ∈ ds -> val_lt a b = true -> val_lt b a = false)
  /\ (forall a b c, a ∈ ds -> b ∈ ds -> c ∈ ds ->
        val_lt a b = false -> val_lt b c = false -> val_lt a c = false).

End Selection.

(** The generator and the [value_type] operations at [double], for runs of
    the model: the index drawn is 0, the value drawn is the upper bound. *)
Definition first_index (hi : nat) : nat := 0.
Definition upper_bound (k : nat) (hi : float) : float := hi.

(** Modelled from the spec: [Distance< Vector< double, 2 > >]
    (VectorFunctions.h is absent), the square root of [SquaredDistance]. *)
Definition Distance (a b : Vector2) : float := PrimFloat.sqrt (SquaredDistance a b).

End Initial.

(** ** Auxiliary definitions for the further properties *)

Module CorrelationAux.
Import Correlation.

(** The accumulators with the roles of the two vectors exchanged. *)
Definition exchange (s : sums) : sums := mkSums (res s) (var2 s) (var1 s).

End CorrelationAux.

Module PoseAux.
Import Math.


End PoseAux.

(** * Properties *)

(** ** Correlation *)

Module CorrelationFacts.
Import Correlation.

Example computeCorrelation_parallel :
  computeCorrelation [1; 2]%float [2; 4]%float = 1%float.
Proof. reflexivity. Qed.

Lemma common_len_nil_l right : common_len [] right = 0.
Proof. unfold common_len. destruct right; reflexivity. Qed.

Lemma common_len_nil_r left : common_len left [] = 0.
Proof. unfold common_len. destruct left; reflexivity. Qed.

(** With one vector empty the loop does not run, and the sums stay zero. *)
Lemma accumulate_one_empty left right :
  left = [] \/ right = [] -> accumulate left right = sums0.
Proof.
  unfold accumulate.
  intros [-> | ->]; [rewrite common_len_nil_l | rewrite common_len_nil_r]; reflexivity.
Qed.

Lemma denom_one_empty left right :
  left = [] \/ right = [] -> denom left right = 0%float.
Proof.
  intros Hempty. unfold denom.
  rewrite (accumulate_one_empty _ _ Hempty). reflexivity.
Qed.

(** Whenever exactly one vector is empty, [computeCorrelation] passes its
    test, divides zero by zero and returns a NaN. *)
Lemma computeCorrelation_one_empty left right :
  (left = [] /\ right <> []) \/ (left <> [] /\ right = []) ->
  computeCorrelation left right = computeCorrelationDirect left right
  /\ denom left right = 0%float
  /\ PrimFloat.is_nan (computeCorrelation left right) = true.
Proof.
  intros Hone.
  assert (Hguard : computeCorrelation left right = computeCorrelationDirect left right).
  { unfold computeCorrelation.
    destruct Hone as [[-> Hr] | [Hl ->]].
    - destruct right; [congruence | reflexivity].
    - destruct left; [congruence | reflexivity]. }
  assert (Hempty : left = [] \/ right = []) by tauto.
  split; [exact Hguard|]. split; [exact (denom_one_empty _ _ Hempty)|].
  rewrite Hguard. unfold computeCorrelationDirect.
  rewrite (denom_one_empty _ _ Hempty), (accumulate_one_empty _ _ Hempty).
  reflexivity.
Qed.

(** C9: [computeCorrelation] returns exactly 1.0 on two empty vectors; the
    division [res/denom] of [computeCorrelationDirect] is reached with
    [denom = 0] through [computeCorrelation], both on an input with exactly
    one empty vector and on an input of non-empty vectors where one
    vector's entries are all zero over the common prefix (the quotient is
    then a NaN). *)
Theorem computeCorrelation_division_by_zero_reachable :
  computeCorrelation [] [] = 1%float
  /\ (exists left right,
        ((left = [] /\ right <> []) \/ (left <> [] /\ right = []))
        /\ computeCorrelation left right = computeCorrelationDirect left right
        /\ denom left right = 0%float
        /\ PrimFloat.is_nan (computeCorrelation left right) = true)
  /\ (exists left right,
        left <> [] /\ right <> []
        /\ (zero_prefix (common_len left right) left
            \/ zero_prefix (common_len left right) right)
        /\ computeCorrelation left right = computeCorrelationDirect left right
        /\ denom left right = 0%float
        /\ PrimFloat.is_nan (computeCorrelation left right) = true).
Proof.
  split; [reflexivity|]. split.
  - exists [], [1%float].
    assert (Hone : (@nil float = [] /\ [1%float] <> []) \/ (@nil float <> [] /\ [1%float] = []))
      by (left; split; [reflexivity | discriminate]).
    split; [exact Hone|].
    exact (computeCorrelation_one_empty [] [1%float] Hone).
  - exists [0; 0]%float, [1; 2; 3]%float.
    split; [discriminate|]. split; [discriminate|].
    split; [left; repeat constructor|].
    repeat split; reflexivity.
Qed.

End CorrelationFacts.

(** ** Pose *)

Module PoseFacts.
Import Math.

Example scalePose_pose123 :
  scalePose 2%float pose123 = mkPose (mkQuaternion 0 0 0 1)%float (mkVector3 2 4 6)%float.
Proof. reflexivity. Qed.

Example toVector_pose123 :
  toVector pose123 (replicate 8 9%float) = Some [1; 2; 3; 0; 0; 0; 1; 9]%float.
Proof. reflexivity. Qed.

Example toVector_short : toVector pose123 (replicate 6 0%float) = None.
Proof. reflexivity. Qed.

(** C8: [scalePose( s )] multiplies each of the three translation
    components by [s] and leaves the rotation quaternion as it was. *)
Theorem scalePose_scales_translation_only (s : float) (this : Pose) :
  m_translation (scalePose s this)
  = mkVector3 (c0 (m_translation this) * s)%float
              (c1 (m_translation this) * s)%float
              (c2 (m_translation this) * s)%float
  /\ m_rotation (scalePose s this) = m_rotation this.
Proof. destruct this as [q [t0 t1 t2]]. split; reflexivity. Qed.

(** C7: [toVector] on a vector with room for seven elements writes the
    translation x, y, z into elements 0-2 and the quaternion x, y, z, w
    into elements 3-6, leaving the length and the later elements alone,
    and [fromVector] rebuilds the pose from the vector written. *)
Theorem toVector_fromVector_roundtrip (this : Pose) (v : uvector) :
  7 <= length v ->
  exists v',
    toVector this v = Some v'
    /\ length v' = length v
    /\ take 7 v' = [c0 (m_translation this); c1 (m_translation this); c2 (m_translation this);
                    qx (m_rotation this); qy (m_rotation this); qz (m_rotation this);
                    qw (m_rotation this)]
    /\ drop 7 v' = drop 7 v
    /\ fromVector v' = Some this.
Proof.
  intros Hlen.
  do 7 (destruct v as [|? v]; [simpl in Hlen; lia|]).
  destruct this as [[x y z w] [t0 t1 t2]].
  eexists. split; [reflexivity|]. repeat split.
Qed.

Lemma toVector_fromVector_roundtrip_witness :
  exists v',
    toVector pose123 (replicate 9 5%float) = Some v'
    /\ length v' = length (replicate 9 5%float)
    /\ take 7 v' = [1; 2; 3; 0; 0; 0; 1]%float
    /\ drop 7 v' = drop 7 (replicate 9 5%float)
    /\ fromVector v' = Some pose123.
Proof.
  apply (toVector_fromVector_roundtrip pose123 (replicate 9 5%float)).
  simpl. lia.
Defined.

(** In the model, [toVector] on a vector without room for seven elements
    ends at the range (3, 7). *)
Lemma toVector_None (this : Pose) (v : uvector) :
  length v < 7 -> toVector this v = None.
Proof.
  intros Hlen. unfold toVector, range_ok.
  destruct (Nat.leb_spec 7 (length v)); [lia|]. reflexivity.
Qed.


Import PoseStore.




End PoseFacts.

(** ** k-means *)

Module KMeansFacts.
Import Stochastic.

Section Totality.

Context {V T : Type} `{VectorOps V T}.
Variable distanceFunc : V -> V -> T.

(** The index found by the search loop lies in the range searched so far. *)
Lemma assign_indices_loop_lt (vec : V) (rest : list V) :
  forall k_now d k,
    k < k_now ->
    assign_indices_loop distanceFunc vec rest k_now d k < k_now + length rest.
Proof.
  induction rest as [|m rest IH]; intros k_now d k Hk; simpl.
  - lia.
  - destruct (val_lt (distanceFunc vec m) d).
    + specialize (IH (S k_now) (distanceFunc vec m) k_now). lia.
    + specialize (IH (S k_now) d k). lia.
Qed.

(** On a non-empty range of means, [assign_indices] returns the index of
    one of them. *)
Lemma assign_indices_Some (means : list V) (vec : V) :
  0 < length means ->
  exists k, assign_indices distanceFunc means vec = Some k /\ k < length means.
Proof.
  destruct means as [|m rest]; simpl; [lia|]. intros _.
  eexists. split; [reflexivity|].
  pose proof (assign_indices_loop_lt vec rest 1 (distanceFunc vec m) 0). lia.
Qed.

(** On an empty range of means it reads through the end iterator. *)
Lemma assign_all_no_means (vec : V) (input : list V) :
  assign_all distanceFunc [] (vec :: input) = None.
Proof. reflexivity. Qed.

Lemma assign_all_Some (means input : list V) :
  0 < length means ->
  exists idx,
    assign_all distanceFunc means input = Some idx
    /\ length idx = length input
    /\ Forall (fun j => j < length means) idx.
Proof.
  intros Hmeans. unfold assign_all.
  induction input as [|vec input (idx & Hidx & Hlen & Hall)].
  - exists []. repeat split. constructor.
  - destruct (assign_indices_Some means vec Hmeans) as (k & Hk & Hlt).
    exists (k :: idx). simpl. rewrite Hk, Hidx. simpl.
    repeat split; [lia | constructor; assumption].
Qed.

(** Adding the elements to their means succeeds when every element has an
    index and every index names a mean. *)
Lemma k_means_accumulate_Some (input : list V) :
  forall (indices : list nat) (means_temp : list V),
    length input <= length indices ->
    Forall (fun j => j < length means_temp) indices ->
    exists means_temp',
      k_means_accumulate input indices means_temp = Some means_temp'
      /\ length means_temp' = length means_temp.
Proof.
  induction input as [|vec input IH]; intros indices means_temp Hlen Hall.
  - exists means_temp. split; reflexivity.
  - destruct indices as [|index indices]; [simpl in Hlen; lia|].
    apply Forall_cons in Hall as [Hindex Hall].
    destruct (lookup_lt_is_Some_2 means_temp index Hindex) as [m Hm].
    simpl. rewrite Hm. simpl.
    destruct (IH indices (<[index := vec_add m vec]> means_temp)) as (mt & Hmt & Hmtlen).
    + simpl in Hlen. lia.
    + rewrite length_insert. exact Hall.
    + exists mt. split; [exact Hmt|]. rewrite Hmtlen. apply length_insert.
Qed.

(** The loop body runs to its end and keeps the invariant. *)
Lemma iteration_Some (input : list V) (n_cluster : nat) (st : loop_state) :
  loop_inv (length input) n_cluster st ->
  exists diff st',
    iteration distanceFunc input n_cluster st = Some (diff, st')
    /\ loop_inv (length input) n_cluster st'
    /\ diff_error st' = Some diff
    /\ executed st' = S (executed st).
Proof.
  intros (Hpos & Hmeans & Hlen & Hall). unfold iteration.
  destruct (k_means_accumulate_Some input (indices st) (replicate n_cluster zeros))
    as (mt & Hmt & Hmtlen).
  - lia.
  - rewrite length_replicate. exact Hall.
  - rewrite length_replicate in Hmtlen.
    rewrite Hmt. simpl.
    assert (Hdiv : length (divide_by_counts (indices st) mt) = n_cluster)
      by (unfold divide_by_counts; rewrite length_imap; exact Hmtlen).
    destruct (assign_all_Some (divide_by_counts (indices st) mt) input)
      as (idx & Hidx & Hidxlen & Hidxall); [lia|].
    rewrite Hidx. simpl. rewrite Hdiv in Hidxall.
    do 2 eexists. split; [reflexivity|].
    unfold loop_inv. simpl. repeat split; assumption.
Qed.

(** From any state that satisfies the invariant, and with more fuel than
    iterations left, the loop ends; it has run its body at most
    [max_iter - i] times more, and fewer only on the [break]. *)
Lemma refinement_loop_Done (input : list V) (n_cluster : nat) :
  forall fuel i st,
    loop_inv (length input) n_cluster st ->
    i <= max_iter ->
    max_iter - i < fuel ->
    exists st',
      refinement_loop distanceFunc fuel input n_cluster i st = Done st'
      /\ loop_inv (length input) n_cluster st'
      /\ executed st' <= executed st + (max_iter - i)
      /\ (i < max_iter -> executed st < executed st' /\ is_Some (diff_error st'))
      /\ (executed st' < executed st + (max_iter - i) ->
          exists diff, diff_error st' = Some diff /\ val_lt diff epsilon = true).
Proof.
  induction fuel as [|fuel IH]; intros i st Hinv Hi Hfuel; [lia|].
  simpl. destruct (Nat.ltb_spec i max_iter) as [Hlt | Hge].
  - destruct (iteration_Some input n_cluster st Hinv) as (diff & st1 & Hit & Hinv1 & Hd1 & He1).
    rewrite Hit. destruct (val_lt diff epsilon) eqn:Hbreak.
    + exists st1. split; [reflexivity|]. split; [exact Hinv1|].
      split; [lia|]. split.
      * intros _. split; [lia | rewrite Hd1; eexists; reflexivity].
      * intros _. exists diff. split; assumption.
    + destruct (IH (S i) st1 Hinv1) as (st' & Hrun & Hinv' & Hle & Hprog & Hearly);
        [lia | lia |].
      exists st'. split; [exact Hrun|]. split; [exact Hinv'|].
      split; [lia|]. split.
      * intros _.
        destruct (Nat.eq_dec (S i) max_iter) as [Hlast | Hmore].
        -- assert (Hst' : st' = st1).
           { destruct fuel; [lia|]. simpl in Hrun.
             destruct (Nat.ltb_spec (S i) max_iter); [lia|]. congruence. }
           subst st'. split; [lia | rewrite Hd1; eexists; reflexivity].
        -- destruct Hprog as [Hprog Hsome]; [lia|]. split; [lia | exact Hsome].
      * intros Hfew. apply Hearly. lia.
  - exists st. split; [reflexivity|]. split; [exact Hinv|].
    split; [lia|]. split; intros; lia.
Qed.

(** C10, amended: for n input elements and a non-empty range of
    n_cluster >= 1 initial means with n > n_cluster, [k_means] returns
    (the model needs no more fuel than max_iter + 1): the loop body has
    run at least once and at most max_iter = 100 times, fewer than 100
    times only if the last [diff_error] was below [epsilon]; the returned
    [diff_error] has a value, there are n_cluster means, and each of the n
    elements has the index of a mean. *)
Theorem k_means_terminates (input means0 : list V) (fuel : nat) :
  0 < length means0 ->
  length means0 < length input ->
  max_iter < fuel ->
  exists st,
    k_means distanceFunc fuel input means0 = Done st
    /\ 1 <= executed st <= 100
    /\ (executed st < 100 ->
        exists diff, diff_error st = Some diff /\ val_lt diff epsilon = true)
    /\ is_Some (diff_error st)
    /\ length (means st) = length means0
    /\ length (indices st) = length input
    /\ Forall (fun j => j < length means0) (indices st).
Proof.
  intros Hmeans Hn Hfuel. unfold k_means.
  destruct (Nat.ltb_spec (length means0) (length input)) as [_ | ?]; [|lia].
  destruct (assign_all_Some means0 input Hmeans) as (idx & Hidx & Hlen & Hall).
  rewrite Hidx.
  destruct (refinement_loop_Done input (length means0) fuel 0 (mkState means0 idx None 0))
    as (st & Hrun & (_ & Hm & Hlen' & Hall') & Hle & Hprog & Hearly).
  - repeat split; assumption.
  - lia.
  - lia.
  - simpl in Hle, Hprog, Hearly.
    change (max_iter - 0) with 100 in Hle, Hearly.
    destruct Hprog as [Hprog Hsome]; [unfold max_iter; lia|].
    exists st. repeat split; try assumption; lia.
Qed.

End Totality.

Example k_means_two_clusters :
  exists st,
    k_means SquaredDistance 101 points4 means2 = Done st
    /\ means st = [mkVector2 0 0.5; mkVector2 10 10.5]%float
    /\ indices st = [0; 0; 1; 1]
    /\ diff_error st = Some 0%float
    /\ executed st = 2.
Proof. eexists. split; [vm_compute; reflexivity|]. repeat split. Qed.

(** A cluster without points has its mean divided by a zero count; the
    NaN that results keeps [diff_error] from ever passing the test, and
    the loop stops at [max_iter]. *)
Example k_means_empty_cluster :
  exists st,
    k_means SquaredDistance 101 points4 means3 = Done st
    /\ indices st = [0; 0; 0; 0]
    /\ (exists diff, diff_error st = Some diff /\ PrimFloat.is_nan diff = true)
    /\ executed st = 100.
Proof.
  eexists. split; [vm_compute; reflexivity|].
  split; [reflexivity|]. split; [|reflexivity].
  eexists. split; reflexivity.
Qed.

Lemma k_means_terminates_witness :
  exists st,
    k_means SquaredDistance 101 points4 means2 = Done st
    /\ 1 <= executed st <= 100
    /\ (executed st < 100 ->
        exists diff, diff_error st = Some diff /\ val_lt diff epsilon = true)
    /\ is_Some (diff_error st)
    /\ length (means st) = length means2
    /\ length (indices st) = length points4
    /\ Forall (fun j => j < length means2) (indices st).
Proof.
  apply (k_means_terminates SquaredDistance points4 means2 101).
  - simpl. lia.
  - simpl. lia.
  - unfold max_iter. lia.
Defined.

(** C10, as stated, fails: one element and an empty range of means meet
    [n > n_cluster], and [k_means] then reads through the end iterator of
    the means instead of returning. *)
Lemma k_means_no_means_faults :
  length (@nil Vector2) < length [mkVector2 0 0]%float
  /\ (forall fuel, k_means SquaredDistance fuel [mkVector2 0 0]%float [] = Fault)
  /\ ~ (exists fuel st,
          k_means SquaredDistance fuel [mkVector2 0 0]%float [] = Done st).
Proof.
  assert (Hfault : forall fuel,
             k_means SquaredDistance fuel [mkVector2 0 0]%float [] = Fault).
  { intros fuel. unfold k_means. simpl. reflexivity. }
  split; [simpl; lia|]. split; [exact Hfault|].
  intros (fuel & st & Hrun). rewrite Hfault in Hrun. discriminate.
Qed.

End KMeansFacts.

(** ** The DLT homography solver *)

Module HomographyFacts.
Import Homography.

Local Open Scope R_scope.

(** *** Collinear source points *)

(** A similarity transform keeps points on a line. *)
Lemma collinear_apply_similarity (T : Similarity) (pts : list Point2) :
  collinear pts -> collinear (map (apply_similarity T) pts).
Proof.
  intros (a & b & c & Hab & Hline).
  exists a, b, (sim_scale T * (a * fst (sim_centre T) + b * snd (sim_centre T) + c)).
  split; [exact Hab|].
  apply Forall_map. eapply Forall_impl; [exact Hline|].
  intros [x y] Hp. simpl in *.
  replace (a * (sim_scale T * (x - fst (sim_centre T)))
           + b * (sim_scale T * (y - snd (sim_centre T)))
           + sim_scale T * (a * fst (sim_centre T) + b * snd (sim_centre T) + c))
    with (sim_scale T * (a * x + b * y + c)) by ring.
  rewrite Hp. ring.
Qed.

Lemma line_rows_independent (a b c : R) :
  a <> 0 \/ b <> 0 -> independent (line_in_row0 a b c) (line_in_row1 a b c).
Proof.
  intros Hab k l Hzero.
  unfold add3, scale3, line_in_row0, line_in_row1, zero3 in Hzero. simpl in Hzero.
  injection Hzero as Hka Hkb _ Hla Hlb _.
  split.
  - destruct Hab as [Ha | Hb]; nra.
  - destruct Hab as [Ha | Hb]; nra.
Qed.

(** Both matrices send every point of the line to zero, so both solve the
    system, whatever the destination points are. *)
Lemma line_rows_null (a b c : R) (source : list Point2) :
  Forall (fun p => a * fst p + b * snd p + c = 0) source ->
  forall dest,
    null_vector (coefficient_matrix source dest) (line_in_row0 a b c)
    /\ null_vector (coefficient_matrix source dest) (line_in_row1 a b c).
Proof.
  unfold null_vector, coefficient_matrix.
  induction 1 as [|[x y] source Hp _ IH]; intros dest.
  - split; constructor.
  - destruct dest as [|[u v] dest]; [split; constructor|].
    destruct (IH dest) as [IH0 IH1]. simpl in Hp. simpl.
    split; repeat constructor; try assumption;
      unfold dot9, line_in_row0, line_in_row1; simpl; lra.
Qed.

Lemma collinear_rank_deficient (source dest : list Point2) :
  collinear source -> rank_deficient (coefficient_matrix source dest).
Proof.
  intros (a & b & c & Hab & Hline).
  exists (line_in_row0 a b c), (line_in_row1 a b c).
  split; [exact (line_rows_independent a b c Hab)|].
  exact (line_rows_null a b c source Hline dest).
Qed.

Lemma collinear_normalized_system (source dest : list Point2) :
  collinear source -> rank_deficient (normalized_system source dest).
Proof.
  intros Hline. unfold normalized_system.
  apply collinear_rank_deficient, collinear_apply_similarity, Hline.
Qed.

Lemma diagonal_points_collinear : collinear diagonal_points.
Proof.
  exists 1, (-1), 0. split; [left; lra|].
  unfold diagonal_points. repeat constructor; simpl; lra.
Qed.

Example solveHomographyDLT_three_points (dest : list Point2) :
  length dest = 3%nat ->
  solveHomographyDLT three_points dest (Fail InsufficientCorrespondences).
Proof. intros Hlen. apply dlt_insufficient; simpl; lia. Qed.

(** C4: on equal-length sequences, [solveHomographyDLT] with fewer than 4
    correspondences fails with [InsufficientCorrespondences], and with 4
    or more correspondences whose source points are collinear it fails
    with [DegenerateConfiguration]; that failure is the only outcome, so
    no homography is returned. *)
Theorem solveHomographyDLT_rejects (source dest : list Point2) (e : error) :
  length source = length dest ->
  ((length source < 4)%nat /\ e = InsufficientCorrespondences)
  \/ ((4 <= length source)%nat /\ collinear source /\ e = DegenerateConfiguration) ->
  solveHomographyDLT source dest (Fail e)
  /\ forall r, solveHomographyDLT source dest r -> r = Fail e.
Proof.
  intros Hlen [[Hfew ->] | (Hmany & Hline & ->)].
  - split; [apply dlt_insufficient; assumption|].
    intros r Hr. destruct Hr; [reflexivity | lia | lia].
  - pose proof (collinear_normalized_system source dest Hline) as Hdef.
    split; [apply dlt_degenerate; assumption|].
    intros r Hr. destruct Hr; [lia | reflexivity | contradiction].
Qed.

Lemma solveHomographyDLT_rejects_witness :
  solveHomographyDLT diagonal_points square_points (Fail DegenerateConfiguration)
  /\ forall r,
       solveHomographyDLT diagonal_points square_points r ->
       r = Fail DegenerateConfiguration.
Proof.
  apply (solveHomographyDLT_rejects diagonal_points square_points DegenerateConfiguration).
  - reflexivity.
  - right. split; [simpl; lia|]. split; [exact diagonal_points_collinear | reflexivity].
Defined.

End HomographyFacts.

(** * Further properties of the code *)

(** ** Binary64 facts used below *)

Module FloatFacts.

Lemma mul_comm (x y : float) : (x * y)%float = (y * x)%float.
Proof.
  apply Prim2SF_inj. rewrite !mul_spec. unfold SF64mul, SFmul.
  destruct (Prim2SF x) as [sx | sx | | sx mx ex], (Prim2SF y) as [sy | sy | | sy my ey];
    try reflexivity; rewrite ?(xorb_comm sx sy); try reflexivity.
  rewrite (Pos.mul_comm mx my), (Z.add_comm ex ey). reflexivity.
Qed.

(** Rocq's binary64 has one NaN. *)
Lemma is_nan_eq (x : float) : PrimFloat.is_nan x = true -> x = nan.
Proof.
  unfold PrimFloat.is_nan. rewrite FloatAxioms.eqb_spec. intros Hnan.
  apply Prim2SF_inj. change (Prim2SF nan) with S754_nan.
  destruct (Prim2SF x) as [s | s | | s m e]; try reflexivity; exfalso.
  - discriminate.
  - destruct s; discriminate.
  - unfold SFeqb, SFcompare in Hnan.
    rewrite Z.compare_refl, Pos.compare_cont_refl in Hnan. destruct s; discriminate.
Qed.

Lemma mul_nan_l (y : float) : (nan * y)%float = nan.
Proof. apply Prim2SF_inj. rewrite mul_spec. reflexivity. Qed.

Lemma mul_nan_r (x : float) : (x * nan)%float = nan.
Proof. rewrite mul_comm. apply mul_nan_l. Qed.

Lemma add_nan_l (y : float) : (nan + y)%float = nan.
Proof. apply Prim2SF_inj. rewrite add_spec. reflexivity. Qed.

Lemma add_nan_r (x : float) : (x + nan)%float = nan.
Proof.
  apply Prim2SF_inj. rewrite add_spec. change (Prim2SF nan) with S754_nan.
  unfold SF64add, SFadd. destruct (Prim2SF x); reflexivity.
Qed.

Lemma div_nan_l (y : float) : (nan / y)%float = nan.
Proof. apply Prim2SF_inj. rewrite div_spec. reflexivity. Qed.

(** Nothing is less than a NaN. *)
Lemma ltb_nan_r (x : float) : (x <? nan)%float = false.
Proof.
  rewrite ltb_spec. change (Prim2SF nan) with S754_nan.
  unfold SFltb, SFcompare. destruct (Prim2SF x); reflexivity.
Qed.

Lemma ltb_nan_l (y : float) : (nan <? y)%float = false.
Proof. rewrite ltb_spec. reflexivity. Qed.

End FloatFacts.

(** ** Correlation: what enters the result *)

Module CorrelationMore.
Import Correlation CorrelationAux.

Lemma common_len_comm left right : common_len left right = common_len right left.
Proof.
  unfold common_len.
  destruct (Nat.ltb_spec (length left) (length right)),
           (Nat.ltb_spec (length right) (length left)); lia.
Qed.

Lemma common_len_le_l left right : common_len left right <= length left.
Proof. unfold common_len. destruct (Nat.ltb_spec (length left) (length right)); lia. Qed.

Lemma common_len_le_r left right : common_len left right <= length right.
Proof. rewrite common_len_comm. apply common_len_le_l. Qed.

Lemma loop_exchange left right :
  forall todo i s,
    loop right left todo i (exchange s) = exchange (loop left right todo i s).
Proof.
  induction todo as [|todo IH]; intros i s; simpl; [reflexivity|].
  rewrite <- IH. f_equal.
  unfold loop_body, exchange. simpl.
  rewrite (FloatFacts.mul_comm (at_index right i) (at_index left i)). reflexivity.
Qed.

Lemma accumulate_exchange left right :
  accumulate right left = exchange (accumulate left right).
Proof.
  unfold accumulate. rewrite (common_len_comm right left).
  apply (loop_exchange left right _ 0 sums0).
Qed.

(** Exchanging the two vectors does not change the result, whatever their
    lengths and entries. *)
Theorem computeCorrelation_symmetric (left right : list float) :
  computeCorrelation left right = computeCorrelation right left.
Proof.
  unfold computeCorrelation.
  rewrite (andb_comm (length right =? 0)).
  destruct ((length left =? 0) && (length right =? 0)); [reflexivity|].
  unfold computeCorrelationDirect, denom.
  rewrite (accumulate_exchange left right). simpl.
  rewrite (FloatFacts.mul_comm (var2 (accumulate left right))). reflexivity.
Qed.

(** The loop reads the two vectors below [i + todo] only. *)
Lemma at_index_take (v : list float) (n i : nat) :
  i < n -> at_index (take n v) i = at_index v i.
Proof. intros Hi. unfold at_index. rewrite !nth_lookup, lookup_take_lt by exact Hi. reflexivity. Qed.

Lemma loop_take left right (n : nat) :
  forall todo i s,
    i + todo <= n ->
    loop (take n left) (take n right) todo i s = loop left right todo i s.
Proof.
  induction todo as [|todo IH]; intros i s Hn; simpl; [reflexivity|].
  rewrite IH by lia. f_equal.
  unfold loop_body. rewrite !at_index_take by lia. reflexivity.
Qed.

Lemma common_len_take left right :
  common_len (take (common_len left right) left) (take (common_len left right) right)
  = common_len left right.
Proof.
  pose proof (common_len_le_l left right). pose proof (common_len_le_r left right).
  unfold common_len at 1. rewrite !length_take.
  destruct (Nat.ltb_spec (common_len left right `min` length left)
                         (common_len left right `min` length right)); lia.
Qed.

Lemma accumulate_take left right :
  accumulate (take (common_len left right) left) (take (common_len left right) right)
  = accumulate left right.
Proof.
  unfold accumulate. rewrite common_len_take. apply loop_take. lia.
Qed.

(** With a non-empty left vector the test of [computeCorrelation] fails. *)
Lemma computeCorrelation_nonempty left right :
  left <> [] -> computeCorrelation left right = computeCorrelationDirect left right.
Proof. intros Hl. unfold computeCorrelation. destruct left; [congruence | reflexivity]. Qed.

(** Only the common prefix of two non-empty vectors enters the result: the
    entries of the longer vector past the length of the shorter one are
    never read. *)
Theorem computeCorrelation_common_prefix (left right : list float) :
  left <> [] -> right <> [] ->
  computeCorrelation left right
  = computeCorrelation (take (common_len left right) left)
                       (take (common_len left right) right).
Proof.
  intros Hl Hr.
  assert (Hlen : 0 < common_len left right).
  { unfold common_len. destruct left, right; try congruence.
    simpl. destruct (_ <? _); lia. }
  assert (Htake : take (common_len left right) left <> []).
  { destruct left; [congruence|]. destruct (common_len _ _); [lia | discriminate]. }
  rewrite (computeCorrelation_nonempty left right Hl).
  rewrite (computeCorrelation_nonempty _ _ Htake).
  unfold computeCorrelationDirect, denom. rewrite accumulate_take. reflexivity.
Qed.

Lemma computeCorrelation_common_prefix_witness :
  computeCorrelation [1; 2]%float [2; 4; 7; 9]%float
  = computeCorrelation (take (common_len [1; 2]%float [2; 4; 7; 9]%float) [1; 2]%float)
                       (take (common_len [1; 2]%float [2; 4; 7; 9]%float) [2; 4; 7; 9]%float).
Proof.
  apply (computeCorrelation_common_prefix [1; 2]%float [2; 4; 7; 9]%float); discriminate.
Defined.

(** Once an accumulator is a NaN it stays one. *)
Lemma loop_res_nan left right :
  forall todo i s, res s = nan -> res (loop left right todo i s) = nan.
Proof.
  induction todo as [|todo IH]; intros i s Hs; simpl; [exact Hs|].
  apply IH. unfold loop_body. simpl. rewrite Hs. apply FloatFacts.add_nan_l.
Qed.

Lemma loop_reaches_nan left right (j : nat) :
  at_index left j = nan \/ at_index right j = nan ->
  forall todo i s, i <= j < i + todo -> res (loop left right todo i s) = nan.
Proof.
  intros Hnan. induction todo as [|todo IH]; intros i s Hj; simpl; [lia|].
  destruct (Nat.eq_dec i j) as [-> | Hne].
  - apply loop_res_nan. unfold loop_body. simpl.
    destruct Hnan as [-> | ->].
    + rewrite FloatFacts.mul_nan_l. apply FloatFacts.add_nan_r.
    + rewrite FloatFacts.mul_nan_r. apply FloatFacts.add_nan_r.
  - apply IH. lia.
Qed.

(** Where the common length is below 2^31, so that the [int] counter of the
    loop reaches it without overflow, a NaN among the entries read makes
    the result a NaN. *)
Theorem computeCorrelation_nan_entry (left right : list float) (j : nat) :
  (Z.of_nat (common_len left right) < 2 ^ 31)%Z ->
  j < common_len left right ->
  PrimFloat.is_nan (at_index left j) = true \/ PrimFloat.is_nan (at_index right j) = true ->
  computeCorrelation left right = nan.
Proof.
  intros _ Hj Hnan.
  assert (Hres : res (accumulate left right) = nan).
  { unfold accumulate. apply (loop_reaches_nan left right j); [|lia].
    destruct Hnan as [H | H]; [left | right]; apply FloatFacts.is_nan_eq, H. }
  unfold computeCorrelation.
  destruct ((length left =? 0) && (length right =? 0)) eqn:Hguard.
  - apply andb_prop in Hguard as [Hl _]. apply Nat.eqb_eq in Hl.
    pose proof (common_len_le_l left right). lia.
  - unfold computeCorrelationDirect. rewrite Hres. apply FloatFacts.div_nan_l.
Qed.

Lemma computeCorrelation_nan_entry_witness :
  computeCorrelation [1; nan; 3]%float [4; 5; 6]%float = nan.
Proof.
  apply (computeCorrelation_nan_entry [1; nan; 3]%float [4; 5; 6]%float 1).
  - reflexivity.
  - vm_compute. lia.
  - left. reflexivity.
Defined.

End CorrelationMore.

(** ** Pose: the vector form *)

Module PoseMore.
Import Math PoseAux.

(** Splits a vector into its first seven elements, closing the cases with
    fewer by [tac]. *)
Ltac seven_elements v tac :=
  do 7 (destruct v as [|? v]; [tac|]).

(** Reading a pose from a vector and writing it back to that vector leaves
    the vector as it was. *)
Theorem fromVector_toVector (v : uvector) :
  7 <= length v ->
  exists this, fromVector v = Some this /\ toVector this v = Some v.
Proof.
  intros Hlen. seven_elements v ltac:(simpl in Hlen; lia).
  eexists. split; reflexivity.
Qed.

Lemma fromVector_toVector_witness :
  exists this,
    fromVector [1; 2; 3; 0; 0; 0; 1; 8]%float = Some this
    /\ toVector this [1; 2; 3; 0; 0; 0; 1; 8]%float = Some [1; 2; 3; 0; 0; 0; 1; 8]%float.
Proof.
  apply (fromVector_toVector [1; 2; 3; 0; 0; 0; 1; 8]%float). simpl. lia.
Defined.

(** Writing a pose erases whatever pose the vector held: after a first
    [toVector], a second one gives what it gives on the original vector. *)
Theorem toVector_overwrites (first second : Pose) (v v1 : uvector) :
  toVector first v = Some v1 ->
  toVector second v1 = toVector second v.
Proof.
  intros Hfirst.
  assert (Hlen : 7 <= length v).
  { destruct (Nat.le_gt_cases 7 (length v)) as [Hle | Hlt]; [exact Hle|].
    unfold toVector, range_ok in Hfirst.
    destruct (Nat.leb_spec 7 (length v)); [lia | discriminate]. }
  seven_elements v ltac:(simpl in Hlen; lia).
  injection Hfirst as <-. reflexivity.
Qed.

Lemma toVector_overwrites_witness :
  toVector pose123 [2; 4; 6; 0; 0; 0; 1; 9]%float
  = toVector pose123 (replicate 8 9%float).
Proof.
  apply (toVector_overwrites (scalePose 2%float pose123) pose123 (replicate 8 9%float)).
  reflexivity.
Defined.


End PoseMore.

(** ** k-means: the parts of an iteration *)

Module KMeansMore.
Import Stochastic Initial.

Section Parts.

Context {V T : Type} `{VectorOps V T}.
Variable distanceFunc : V -> V -> T.

(** *** copy_greedy *)

Lemma copy_greedy_loop_take (input : list V) :
  forall todo i selected,
    i <= length input ->
    copy_greedy_loop input todo i selected
    = if i + todo <=? length input then Some (selected ++ take todo (drop i input))
      else None.
Proof.
  induction todo as [|todo IH]; intros i selected Hi; simpl.
  - destruct (Nat.leb_spec (i + 0) (length input)); [|lia].
    rewrite app_nil_r. reflexivity.
  - destruct (input !! i) as [x|] eqn:Hx; simpl.
    + apply lookup_lt_Some in Hx as Hlt.
      rewrite IH by lia.
      replace (S i + todo) with (i + S todo) by lia.
      destruct (i + S todo <=? length input); [|reflexivity].
      rewrite (drop_S _ _ _ Hx). simpl. rewrite <- app_assoc. reflexivity.
    + apply lookup_ge_None_1 in Hx.
      destruct (Nat.leb_spec (i + S todo) (length input)); [lia | reflexivity].
Qed.

(** [copy_greedy] hands on the first [n_cluster] elements, in order; since
    it never looks at [iEnd], asking for more elements than the range
    holds makes it read past the end. *)
Theorem copy_greedy_prefix (input : list V) (n_cluster : nat) :
  copy_greedy input n_cluster
  = if n_cluster <=? length input then Some (take n_cluster input) else None.
Proof.
  unfold copy_greedy. rewrite copy_greedy_loop_take by lia. reflexivity.
Qed.

(** *** assign_indices *)

(** The search loop, from a state in which [k] is the index of a least
    distance among the means passed, and the first such: the same holds
    of its result among all the means. *)
Lemma assign_indices_loop_least (vec : V) (rest : list V) :
  forall (passed : list V) (mk : V) (k : nat),
    comparable (map (distanceFunc vec) (passed ++ rest)) ->
    passed !! k = Some mk ->
    (forall j m, passed !! j = Some m ->
                 val_lt (distanceFunc vec m) (distanceFunc vec mk) = false) ->
    (forall j m, j < k -> passed !! j = Some m ->
                 val_lt (distanceFunc vec mk) (distanceFunc vec m) = true) ->
    exists mk',
      (passed ++ rest)
        !! assign_indices_loop distanceFunc vec rest (length passed) (distanceFunc vec mk) k
      = Some mk'
      /\ (forall j m, (passed ++ rest) !! j = Some m ->
                      val_lt (distanceFunc vec m) (distanceFunc vec mk') = false)
      /\ (forall j m,
            j < assign_indices_loop distanceFunc vec rest (length passed) (distanceFunc vec mk) k ->
            (passed ++ rest) !! j = Some m ->
            val_lt (distanceFunc vec mk') (distanceFunc vec m) = true).
Proof.
  induction rest as [|m rest IH]; intros passed mk k Hcmp Hk Hleast Hfirst.
  - simpl. rewrite app_nil_r. exists mk. repeat split; assumption.
  - simpl.
    assert (Hin : forall x, x ∈ passed ++ m :: rest ->
                            distanceFunc vec x ∈ map (distanceFunc vec) (passed ++ m :: rest)).
    { intros x Hx. apply list_elem_of_fmap. exists x. split; [reflexivity | exact Hx]. }
    assert (Hpassed : forall j x, passed !! j = Some x -> x ∈ passed ++ m :: rest).
    { intros j x Hx. apply elem_of_app. left. eapply list_elem_of_lookup_2, Hx. }
    assert (Hm : m ∈ passed ++ m :: rest).
    { apply elem_of_app. right. left. }
    destruct Hcmp as [Hasym Hneg].
    replace (passed ++ m :: rest) with ((passed ++ [m]) ++ rest) in *
      by (rewrite <- app_assoc; reflexivity).
    replace (S (length passed)) with (length (passed ++ [m]))
      by (rewrite length_app; simpl; lia).
    destruct (val_lt (distanceFunc vec m) (distanceFunc vec mk)) eqn:Hlt.
    + (* the new mean is strictly closer: it becomes the choice *)
      apply (IH (passed ++ [m]) m (length passed)).
      * split; assumption.
      * rewrite lookup_app_r, Nat.sub_diag by lia. reflexivity.
      * intros j x Hx.
        destruct (lookup_app_Some passed [m] j x) as [[Hj | [Hge Hj]] _]; [exact Hx | |].
        -- apply (Hneg _ (distanceFunc vec mk) _); eauto.
        -- destruct (j - length passed) as [|?]; [|discriminate].
           injection Hj as <-.
           destruct (val_lt (distanceFunc vec m) (distanceFunc vec m)) eqn:Hrefl;
             [|reflexivity].
           rewrite (Hasym _ _ (Hin _ Hm) (Hin _ Hm) Hrefl) in Hrefl. discriminate.
      * intros j x Hj Hx.
        rewrite lookup_app_l in Hx by exact Hj.
        destruct (val_lt (distanceFunc vec m) (distanceFunc vec x)) eqn:Hmx; [reflexivity|].
        rewrite (Hneg _ (distanceFunc vec x) _ (Hin _ Hm) (Hin _ (Hpassed _ _ Hx))
                   (Hin _ (Hpassed _ _ Hk)) Hmx (Hleast _ _ Hx)) in Hlt.
        discriminate.
    + (* the choice stands *)
      apply (IH (passed ++ [m]) mk k).
      * split; assumption.
      * rewrite lookup_app_l by (eapply lookup_lt_Some, Hk). exact Hk.
      * intros j x Hx.
        destruct (lookup_app_Some passed [m] j x) as [[Hj | [Hge Hj]] _]; [exact Hx | |].
        -- eauto.
        -- destruct (j - length passed) as [|?]; [|discriminate].
           injection Hj as <-. exact Hlt.
      * intros j x Hj Hx. apply lookup_lt_Some in Hk as Hklt.
        rewrite lookup_app_l in Hx by lia. eauto.
Qed.

(** Where the distances from [vec] to the means compare as numbers do,
    [assign_indices] returns the index of a nearest mean, and of several
    nearest means the first: no mean is strictly closer than the one
    chosen, and the one chosen is strictly closer than every mean before
    it. *)
Theorem assign_indices_nearest (means : list V) (vec : V) (k : nat) :
  comparable (map (distanceFunc vec) means) ->
  assign_indices distanceFunc means vec = Some k ->
  exists mk,
    means !! k = Some mk
    /\ (forall j m, means !! j = Some m ->
                    val_lt (distanceFunc vec m) (distanceFunc vec mk) = false)
    /\ (forall j m, j < k -> means !! j = Some m ->
                    val_lt (distanceFunc vec mk) (distanceFunc vec m) = true).
Proof.
  intros Hcmp Hassign. destruct means as [|m0 rest]; [discriminate|].
  simpl in Hassign. injection Hassign as <-.
  apply (assign_indices_loop_least vec rest [m0] m0 0).
  - exact Hcmp.
  - reflexivity.
  - intros j m Hj. destruct j as [|j]; [|discriminate]. injection Hj as <-.
    destruct Hcmp as [Hasym _].
    assert (Hin : distanceFunc vec m0 ∈ map (distanceFunc vec) (m0 :: rest)) by left.
    destruct (val_lt (distanceFunc vec m0) (distanceFunc vec m0)) eqn:Hrefl; [|reflexivity].
    rewrite (Hasym _ _ Hin Hin Hrefl) in Hrefl. discriminate.
  - intros j m Hj. lia.
Qed.

(** *** The new means *)

(** After the accumulation, each mean holds what it held before plus the
    elements of its cluster, added in input order. *)
Lemma k_means_accumulate_cluster (input : list V) :
  forall (indices : list nat) (means_temp means_temp' : list V),
    k_means_accumulate input indices means_temp = Some means_temp' ->
    forall k m,
      means_temp !! k = Some m ->
      means_temp' !! k = Some (foldl vec_add m (cluster input indices k)).
Proof.
  induction input as [|vec input IH]; intros indices mt mt' Hacc k m Hm.
  - simpl in Hacc. injection Hacc as <-. destruct indices; exact Hm.
  - destruct indices as [|index indices]; [discriminate|].
    simpl in Hacc. destruct (mt !! index) as [mi|] eqn:Hmi; [|discriminate].
    simpl in Hacc. simpl.
    destruct (Nat.eqb_spec index k) as [-> | Hne].
    + assert (mi = m) as -> by congruence.
      apply (IH _ _ _ Hacc). apply list_lookup_insert_eq. eapply lookup_lt_Some, Hm.
    + apply (IH _ _ _ Hacc). rewrite list_lookup_insert_ne by exact Hne. exact Hm.
Qed.

Lemma k_means_accumulate_length (input : list V) :
  forall (indices : list nat) (means_temp means_temp' : list V),
    k_means_accumulate input indices means_temp = Some means_temp' ->
    length means_temp' = length means_temp.
Proof.
  induction input as [|vec input IH]; intros indices mt mt' Hacc.
  - simpl in Hacc. congruence.
  - destruct indices as [|index indices]; [discriminate|].
    simpl in Hacc. destruct (mt !! index); [|discriminate]. simpl in Hacc.
    rewrite (IH _ _ _ Hacc). apply length_insert.
Qed.

Lemma count_cluster (input : list V) :
  forall (indices : list nat) (k : nat),
    length indices = length input ->
    count indices k = length (cluster input indices k).
Proof.
  unfold count.
  induction input as [|vec input IH]; intros indices k Hlen.
  - destruct indices; [reflexivity | discriminate].
  - destruct indices as [|index indices]; [discriminate|].
    simpl in Hlen. rewrite filter_cons. simpl.
    destruct (Nat.eqb_spec index k) as [-> | Hne].
    + rewrite decide_True by reflexivity. simpl. rewrite (IH indices k) by lia. reflexivity.
    + rewrite decide_False by exact Hne. apply IH. lia.
Qed.

Lemma iteration_means (input : list V) (n_cluster : nat) (st st' : loop_state) (diff : T) :
  iteration distanceFunc input n_cluster st = Some (diff, st') ->
  length (means st') = n_cluster
  /\ forall k,
       k < n_cluster ->
       means st' !! k
       = Some (vec_div (foldl vec_add zeros (cluster input (indices st) k))
                       (count (indices st) k)).
Proof.
  unfold iteration. intros Hit.
  destruct (k_means_accumulate input (indices st) (replicate n_cluster zeros))
    as [mt|] eqn:Hacc; [|discriminate].
  simpl in Hit.
  destruct (assign_all distanceFunc (divide_by_counts (indices st) mt) input)
    as [idx|]; [|discriminate].
  simpl in Hit. injection Hit as _ <-. simpl.
  unfold divide_by_counts. split.
  - rewrite length_imap, (k_means_accumulate_length _ _ _ _ Hacc).
    apply length_replicate.
  - intros k Hk. rewrite list_lookup_imap.
    rewrite (k_means_accumulate_cluster _ _ _ _ Hacc k zeros)
      by (apply lookup_replicate_2, Hk).
    reflexivity.
Qed.

(** One iteration replaces the mean of every cluster by the centroid of
    the elements that carry its index: their sum, taken from
    [zeros] in input order, divided by their number. *)
Theorem iteration_centroids (input : list V) (n_cluster : nat) (st st' : loop_state) (diff : T) :
  iteration distanceFunc input n_cluster st = Some (diff, st') ->
  length (indices st) = length input ->
  length (means st') = n_cluster
  /\ forall k,
       k < n_cluster ->
       means st' !! k
       = Some (vec_div (foldl vec_add zeros (cluster input (indices st) k))
                       (length (cluster input (indices st) k))).
Proof.
  intros Hit Hlen. destruct (iteration_means _ _ _ _ _ Hit) as [Hn Hmeans].
  split; [exact Hn|].
  intros k Hk. rewrite (Hmeans k Hk), (count_cluster input _ k Hlen). reflexivity.
Qed.

(** *** The indices returned *)

Lemma iteration_assigned (input : list V) (n_cluster : nat) (st st' : loop_state) (diff : T) :
  iteration distanceFunc input n_cluster st = Some (diff, st') ->
  assign_all distanceFunc (means st') input = Some (indices st').
Proof.
  unfold iteration. intros Hit.
  destruct (k_means_accumulate input (indices st) (replicate n_cluster zeros));
    [|discriminate].
  simpl in Hit.
  destruct (assign_all distanceFunc (divide_by_counts (indices st) l) input) eqn:Hidx;
    [|discriminate].
  simpl in Hit. injection Hit as _ <-. exact Hidx.
Qed.

Lemma refinement_loop_assigned (input : list V) (n_cluster : nat) :
  forall fuel i st st',
    assign_all distanceFunc (means st) input = Some (indices st) ->
    refinement_loop distanceFunc fuel input n_cluster i st = Done st' ->
    assign_all distanceFunc (means st') input = Some (indices st').
Proof.
  induction fuel as [|fuel IH]; intros i st st' Hst Hrun; [discriminate|].
  simpl in Hrun. destruct (i <? max_iter).
  - destruct (iteration distanceFunc input n_cluster st) as [[diff st1]|] eqn:Hit;
      [|discriminate].
    apply iteration_assigned in Hit.
    destruct (val_lt diff epsilon).
    + injection Hrun as <-. exact Hit.
    + exact (IH _ _ _ Hit Hrun).
  - injection Hrun as <-. exact Hst.
Qed.

(** The indices that [k_means] returns belong to the means it returns:
    each element carries the index that [assign_indices] gives it against
    the final means, not against the means of the round before. *)
Theorem k_means_indices_of_final_means (input means0 : list V) (fuel : nat) (st : loop_state) :
  k_means distanceFunc fuel input means0 = Done st ->
  Forall2 (fun vec k => assign_indices distanceFunc (means st) vec = Some k)
          input (indices st).
Proof.
  unfold k_means. intros Hrun.
  destruct (length means0 <? length input); [|discriminate].
  destruct (assign_all distanceFunc means0 input) as [idx|] eqn:Hidx; [|discriminate].
  apply mapM_Some.
  exact (refinement_loop_assigned input _ fuel 0 (mkState means0 idx None 0) st Hidx Hrun).
Qed.

(** *** copy_probability and the public k_means *)

Variable val_le : T -> T -> bool.
Variable val_sub : T -> T -> T.
Variable draw_index : nat -> nat.
Variable draw_value : nat -> T -> T.

(** The inner loop stops at an index of the distances, whatever value was
    drawn. *)
Lemma pick_in_range (distances : list T) :
  forall todo index max_range,
    index + todo < length distances ->
    exists j,
      pick val_le val_sub distances todo index max_range = Some j
      /\ j <= index + todo.
Proof.
  induction todo as [|todo IH]; intros index max_range Hlen; simpl.
  - exists index. split; [reflexivity | lia].
  - destruct (lookup_lt_is_Some_2 distances index) as [d Hd]; [lia|].
    rewrite Hd. simpl. destruct (val_le max_range d).
    + exists index. split; [reflexivity | lia].
    + destruct (IH (S index) (val_sub max_range d)) as (j & Hj & Hle); [lia|].
      exists j. split; [exact Hj | lia].
Qed.

Lemma select_more_Done (input : list V) (n_cluster : nat) :
  forall todo k distances dist_sum selected,
    0 < length input ->
    length distances = length input ->
    length selected = k ->
    Forall (fun x => x ∈ input) selected ->
    exists r sel,
      select_more val_le val_sub draw_value distanceFunc
                  input n_cluster todo k distances dist_sum selected
      = Done (r, sel)
      /\ Forall (fun x => x ∈ input) sel
      /\ k <= length sel <= k + todo
      /\ ((r = length sel /\ length sel < k + todo)
          \/ (r = n_cluster /\ length sel = k + todo)).
Proof.
  induction todo as [|todo IH]; intros k distances dist_sum selected Hn Hd Hk Hin; simpl.
  - exists n_cluster, selected. split; [reflexivity|]. split; [exact Hin|].
    split; [lia|]. right. split; [reflexivity | lia].
  - destruct (val_le dist_sum val_zero).
    + exists k, selected. split; [reflexivity|]. split; [exact Hin|].
      split; [lia|]. left. lia.
    + destruct (pick_in_range distances (length input - 1) 0 (draw_value k dist_sum))
        as (index & Hpick & Hindex); [lia|].
      rewrite Hpick.
      destruct (lookup_lt_is_Some_2 input index) as [chosen Hchosen]; [lia|].
      rewrite Hchosen.
      destruct (IH (S k)
                  (zip_with (val_min (V := V)) distances
                            (distances_to distanceFunc chosen input))
                  (accumulate (V := V)
                     (zip_with (val_min (V := V)) distances
                               (distances_to distanceFunc chosen input)))
                  (selected ++ [chosen]))
        as (r & sel & Hrun & Hsel & Hlen & Hr).
      * exact Hn.
      * unfold distances_to. rewrite length_zip_with, length_map. lia.
      * rewrite length_app. simpl. lia.
      * apply Forall_app. split; [exact Hin|].
        constructor; [|constructor]. eapply list_elem_of_lookup_2, Hchosen.
      * exists r, sel. split; [exact Hrun|]. split; [exact Hsel|].
        split; [lia|]. destruct Hr as [[Hr Hearly] | [Hr Hfull]]; [left | right]; lia.
Qed.

Lemma copy_probability_Done (input : list V) (n_cluster : nat) :
  draw_index (size_pred (length input)) < length input ->
  exists r sel,
    copy_probability val_le val_sub draw_index draw_value distanceFunc input n_cluster
    = Done (r, sel)
    /\ length sel = max 1 r
    /\ r <= n_cluster
    /\ (1 <= n_cluster -> 1 <= r)
    /\ Forall (fun x => x ∈ input) sel.
Proof.
  intros Hdraw. unfold copy_probability.
  destruct (lookup_lt_is_Some_2 input _ Hdraw) as [chosen Hchosen].
  rewrite Hchosen.
  destruct (select_more_Done input n_cluster (n_cluster - 1) 1
              (distances_to distanceFunc chosen input)
              (accumulate (V := V) (distances_to distanceFunc chosen input))
              [chosen])
    as (r & sel & Hrun & Hsel & Hlen & Hr).
  - lia.
  - unfold distances_to. apply length_map.
  - reflexivity.
  - constructor; [|constructor]. eapply list_elem_of_lookup_2, Hchosen.
  - exists r, sel. split; [exact Hrun|].
    destruct Hr as [[Hr Hearly] | [Hr Hfull]]; repeat split; try assumption; lia.
Qed.

(** With an index drawn inside the range, [copy_probability] reads no
    element outside it, whatever values are drawn afterwards.  It selects
    elements of the input, at least one and at most [n_cluster] (one if
    [n_cluster] is 0), and returns their number, except that with
    [n_cluster = 0] it returns 0 and has selected one. *)
Theorem copy_probability_selects (input : list V) (n_cluster : nat) :
  draw_index (size_pred (length input)) < length input ->
  exists r sel,
    copy_probability val_le val_sub draw_index draw_value distanceFunc input n_cluster
    = Done (r, sel)
    /\ length sel = max 1 r
    /\ r <= n_cluster
    /\ (1 <= n_cluster -> 1 <= r)
    /\ Forall (fun x => x ∈ input) sel.
Proof. exact (copy_probability_Done input n_cluster). Qed.

Variable squaredDistanceFunc : V -> V -> T.

(** The public [k_means] returns whenever the range holds more elements
    than clusters are asked for (and more than one): between 1 and
    [n_cluster] centroids come back (one for [n_cluster = 0]), every
    element has the index of one of them, and the refinement has run at
    most 100 times. *)
Theorem k_means_by_count_returns (input : list V) (n_cluster fuel : nat) :
  draw_index (size_pred (length input)) < length input ->
  max 1 n_cluster < length input ->
  max_iter < fuel ->
  exists st,
    k_means_by_count val_le val_sub draw_index draw_value distanceFunc squaredDistanceFunc
                     fuel input n_cluster
    = Done st
    /\ 1 <= length (means st) <= max 1 n_cluster
    /\ 1 <= executed st <= 100
    /\ length (indices st) = length input
    /\ Forall (fun j => j < length (means st)) (indices st).
Proof.
  intros Hdraw Hn Hfuel. unfold k_means_by_count.
  destruct (copy_probability_Done input n_cluster Hdraw)
    as (r & sel & -> & Hlen & Hr & _ & _).
  unfold k_means.
  destruct (Nat.ltb_spec (length sel) (length input)) as [_ | ?]; [|lia].
  destruct (KMeansFacts.assign_all_Some squaredDistanceFunc sel input)
    as (idx & Hidx & Hidxlen & Hall); [lia|].
  rewrite Hidx.
  destruct (KMeansFacts.refinement_loop_Done squaredDistanceFunc input (length sel) fuel 0
              (mkState sel idx None 0))
    as (st & Hrun & (_ & Hm & Hlen' & Hall') & Hle & Hprog & _).
  - repeat split; try assumption; lia.
  - lia.
  - lia.
  - simpl in Hle, Hprog.
    change (max_iter - 0) with 100 in Hle.
    destruct Hprog as [Hprog _]; [unfold max_iter; lia|].
    exists st. rewrite Hm.
    repeat split; try assumption; lia.
Qed.

End Parts.

(** *** Runs on points of the plane *)

Lemma comparable_distances :
  comparable (map (SquaredDistance (mkVector2 0 1)%float)
                  [mkVector2 10 10; mkVector2 0 0; mkVector2 0 2]%float).
Proof.
  split.
  - intros a b Ha Hb. simpl in Ha, Hb.
    repeat (apply elem_of_cons in Ha as [-> | Ha]);
      repeat (apply elem_of_cons in Hb as [-> | Hb]);
      try (apply elem_of_nil in Ha as []); try (apply elem_of_nil in Hb as []);
      vm_compute; congruence.
  - intros a b c Ha Hb Hc. simpl in Ha, Hb, Hc.
    repeat (apply elem_of_cons in Ha as [-> | Ha]);
      repeat (apply elem_of_cons in Hb as [-> | Hb]);
      repeat (apply elem_of_cons in Hc as [-> | Hc]);
      try (apply elem_of_nil in Ha as []); try (apply elem_of_nil in Hb as []);
      try (apply elem_of_nil in Hc as []);
      vm_compute; congruence.
Qed.

Lemma assign_indices_nearest_witness :
  exists mk,
    [mkVector2 10 10; mkVector2 0 0; mkVector2 0 2]%float !! 1 = Some mk
    /\ (forall j m,
          [mkVector2 10 10; mkVector2 0 0; mkVector2 0 2]%float !! j = Some m ->
          val_lt (SquaredDistance (mkVector2 0 1)%float m)
                 (SquaredDistance (mkVector2 0 1)%float mk) = false)
    /\ (forall j m,
          j < 1 ->
          [mkVector2 10 10; mkVector2 0 0; mkVector2 0 2]%float !! j = Some m ->
          val_lt (SquaredDistance (mkVector2 0 1)%float mk)
                 (SquaredDistance (mkVector2 0 1)%float m) = true).
Proof.
  apply (assign_indices_nearest SquaredDistance
           [mkVector2 10 10; mkVector2 0 0; mkVector2 0 2]%float (mkVector2 0 1)%float 1).
  - exact comparable_distances.
  - reflexivity.
Defined.

Lemma iteration_centroids_witness :
  length [mkVector2 0 0.5; mkVector2 10 10.5]%float = 2
  /\ forall k,
       k < 2 ->
       [mkVector2 0 0.5; mkVector2 10 10.5]%float !! k
       = Some (vec_div (foldl vec_add zeros (cluster points4 [0; 0; 1; 1] k))
                       (length (cluster points4 [0; 0; 1; 1] k))).
Proof.
  apply (iteration_centroids SquaredDistance points4 2
           (mkState means2 [0; 0; 1; 1] None 0)
           (mkState [mkVector2 0 0.5; mkVector2 10 10.5]%float [0; 0; 1; 1]
                    (Some 0.25%float) 1)
           0.25%float).
  - vm_compute. reflexivity.
  - reflexivity.
Defined.

Lemma k_means_indices_of_final_means_witness :
  Forall2 (fun vec k =>
             assign_indices SquaredDistance [mkVector2 0 0.5; mkVector2 10 10.5]%float vec
             = Some k)
          points4 [0; 0; 1; 1].
Proof.
  apply (k_means_indices_of_final_means SquaredDistance points4 means2 101
           (mkState [mkVector2 0 0.5; mkVector2 10 10.5]%float [0; 0; 1; 1]
                    (Some 0%float) 2)).
  vm_compute. reflexivity.
Defined.

Lemma copy_probability_selects_witness :
  exists r sel,
    copy_probability PrimFloat.leb PrimFloat.sub first_index upper_bound Distance points4 3
    = Done (r, sel)
    /\ length sel = max 1 r
    /\ r <= 3
    /\ (1 <= 3 -> 1 <= r)
    /\ Forall (fun x => x ∈ points4) sel.
Proof.
  apply (copy_probability_selects Distance PrimFloat.leb PrimFloat.sub first_index upper_bound
           points4 3).
  vm_compute. lia.
Defined.

Lemma k_means_by_count_returns_witness :
  exists st,
    k_means_by_count PrimFloat.leb PrimFloat.sub first_index upper_bound Distance SquaredDistance
                     101 points4 2
    = Done st
    /\ 1 <= length (means st) <= max 1 2
    /\ 1 <= executed st <= 100
    /\ length (indices st) = length points4
    /\ Forall (fun j => j < length (means st)) (indices st).
Proof.
  apply (k_means_by_count_returns Distance PrimFloat.leb PrimFloat.sub first_index upper_bound
           SquaredDistance points4 2 101).
  - vm_compute. lia.
  - vm_compute. lia.
  - unfold max_iter. lia.
Defined.

(** *** NaN distances *)

Lemma assign_indices_loop_from_nan (distanceFunc : Vector2 -> Vector2 -> float)
    (vec : Vector2) (rest : list Vector2) :
  forall k_now k, assign_indices_loop distanceFunc vec rest k_now nan k = k.
Proof.
  induction rest as [|m rest IH]; intros k_now k; simpl; [reflexivity|].
  rewrite FloatFacts.ltb_nan_r. apply IH.
Qed.

Lemma assign_indices_loop_not_nan (distanceFunc : Vector2 -> Vector2 -> float)
    (vec : Vector2) (rest : list Vector2) :
  forall (passed : list Vector2) (mk : Vector2) (k : nat),
    passed !! k = Some mk ->
    (PrimFloat.is_nan (distanceFunc vec mk) = true -> k = 0) ->
    forall mk',
      (passed ++ rest)
        !! assign_indices_loop distanceFunc vec rest (length passed) (distanceFunc vec mk) k
      = Some mk' ->
      PrimFloat.is_nan (distanceFunc vec mk') = true ->
      assign_indices_loop distanceFunc vec rest (length passed) (distanceFunc vec mk) k = 0.
Proof.
  induction rest as [|m rest IH]; intros passed mk k Hk Hnan mk' Hmk' Hnan'.
  - simpl in *. rewrite app_nil_r in Hmk'. apply Hnan. congruence.
  - simpl in *.
    replace (passed ++ m :: rest) with ((passed ++ [m]) ++ rest) in Hmk'
      by (rewrite <- app_assoc; reflexivity).
    replace (S (length passed)) with (length (passed ++ [m])) in *
      by (rewrite length_app; simpl; lia).
    destruct (distanceFunc vec m <? distanceFunc vec mk)%float eqn:Hlt.
    + apply (IH (passed ++ [m]) m (length passed)) with (mk' := mk'); try assumption.
      * rewrite lookup_app_r, Nat.sub_diag by lia. reflexivity.
      * intros Hm. apply FloatFacts.is_nan_eq in Hm. rewrite Hm in Hlt.
        rewrite FloatFacts.ltb_nan_l in Hlt. discriminate.
    + apply (IH (passed ++ [m]) mk k) with (mk' := mk'); try assumption.
      rewrite lookup_app_l by (eapply lookup_lt_Some, Hk). exact Hk.
Qed.

(** On [double] distances, a mean at a NaN distance is chosen only as the
    first mean, and a first mean at a NaN distance is always chosen: a NaN
    first distance is never beaten, and a NaN distance never beats
    another. *)
Theorem assign_indices_nan (distanceFunc : Vector2 -> Vector2 -> float)
    (means : list Vector2) (vec : Vector2) (k : nat) (m0 mk : Vector2) :
  means !! 0 = Some m0 ->
  assign_indices distanceFunc means vec = Some k ->
  means !! k = Some mk ->
  PrimFloat.is_nan (distanceFunc vec m0) = true
  \/ PrimFloat.is_nan (distanceFunc vec mk) = true ->
  assign_indices distanceFunc means vec = Some 0.
Proof.
  intros Hm0 Hassign Hmk Hnan. rewrite Hassign. f_equal.
  destruct means as [|m rest]; [discriminate|].
  simpl in Hm0. injection Hm0 as ->.
  simpl in Hassign. injection Hassign as <-.
  destruct Hnan as [Hnan | Hnan].
  - apply FloatFacts.is_nan_eq in Hnan. rewrite Hnan.
    apply assign_indices_loop_from_nan.
  - apply (assign_indices_loop_not_nan distanceFunc vec rest [m0] m0 0) with (mk' := mk);
      [reflexivity | reflexivity | exact Hmk | exact Hnan].
Qed.

Lemma assign_indices_nan_witness :
  assign_indices SquaredDistance [mkVector2 nan 0; mkVector2 0 1]%float (mkVector2 0 1)%float
  = Some 0.
Proof.
  apply (assign_indices_nan SquaredDistance
           [mkVector2 nan 0; mkVector2 0 1]%float (mkVector2 0 1)%float 0
           (mkVector2 nan 0)%float (mkVector2 nan 0)%float);
    [reflexivity | reflexivity | reflexivity | left; reflexivity].
Defined.

Lemma cluster_unused (input : list Vector2) :
  forall (indices : list nat) (k : nat), k ∉ indices -> cluster input indices k = [].
Proof.
  induction input as [|vec input IH]; intros indices k Hk; [reflexivity|].
  destruct indices as [|index indices]; [reflexivity|].
  apply not_elem_of_cons in Hk as [Hne Hk]. simpl.
  destruct (Nat.eqb_spec index k); [congruence|]. apply IH, Hk.
Qed.

Lemma count_unused (indices : list nat) (k : nat) : k ∉ indices -> count indices k = 0.
Proof.
  unfold count. induction indices as [|index indices IH]; intros Hk; [reflexivity|].
  apply not_elem_of_cons in Hk as [Hne Hk].
  rewrite filter_cons, decide_False by congruence. apply IH, Hk.
Qed.

(** On [double] vectors, an iteration turns the mean of a cluster that no
    element belongs to into (NaN, NaN): its zero sum is divided by a zero
    count. *)
Theorem iteration_empty_cluster (distanceFunc : Vector2 -> Vector2 -> float)
    (input : list Vector2) (n_cluster : nat) (st st' : loop_state) (diff : float) (k : nat) :
  iteration distanceFunc input n_cluster st = Some (diff, st') ->
  k < n_cluster ->
  k ∉ indices st ->
  means st' !! k = Some (mkVector2 nan nan).
Proof.
  intros Hit Hk Hunused.
  destruct (iteration_means distanceFunc _ _ _ _ _ Hit) as [_ Hmeans].
  rewrite (Hmeans k Hk), (cluster_unused input _ k Hunused), (count_unused _ k Hunused).
  reflexivity.
Qed.

Lemma iteration_empty_cluster_witness :
  [mkVector2 5 5.5; mkVector2 nan nan; mkVector2 nan nan]%float !! 2
  = Some (mkVector2 nan nan).
Proof.
  apply (iteration_empty_cluster SquaredDistance points4 3
           (mkState means3 [0; 0; 0; 0] None 0)
           (mkState [mkVector2 5 5.5; mkVector2 nan nan; mkVector2 nan nan]%float
                    [0; 0; 0; 0] (Some nan) 1)
           nan 2).
  - vm_compute. reflexivity.
  - lia.
  - intros Hin. repeat (apply elem_of_cons in Hin as [Hin | Hin]; [discriminate|]).
    apply elem_of_nil in Hin as [].
Defined.

End KMeansMore.
